(** * ts-optchain: the [oc] optional-chaining proxy

    A shallow embedding of [src/dist/index.js] (function [oc], the only
    executable code of the package) and the properties its specification
    states about it.

    The program is a single recursive constructor:
<<
    function oc(data, parentKey) {
      return new Proxy(function (defaultValue) {
                         return data == null ? defaultValue : data; },
        { get: function (target, key) {
            if (key === '_err') {
              return function (errorMsg) {
                if (data == null) {
                  throw new Error(errorMsg || String(parentKey) + " is not set"); }
                return data; }; }
            var obj = target();
            return oc(typeof obj === 'object' ? obj[key] : undefined, key); } });
    }
>>
    The host language is modelled as far as the program uses it: values with
    references into a store of objects, the [typeof] operator, the loose
    comparison with [null], the property read [obj[key]] (which raises a
    [TypeError] on [null] and [undefined]), [String(...)] on property keys and
    the [||] operator on an optional string. *)

From stdpp Require Import base option list strings pretty gmap.
From Stdlib Require Import ZArith.

Local Open Scope string_scope.

(** ** Host values *)

Module Js.

(** Object identities. *)
Definition loc := nat.

(** A property key as a Proxy [get] trap receives it: a string (numeric
    indices arrive as their canonical decimal string) or a symbol, identified
    here with its description. *)
Inductive key :=
| KStr (s : string)
| KSym (description : string).

Global Instance key_eq_dec : EqDecision key.
Proof. solve_decision. Defined.

Global Instance key_countable : Countable key.
Proof.
  refine (inj_countable'
            (fun k => match k with KStr s => inl s | KSym d => inr d end)
            (fun x => match x with inl s => KStr s | inr d => KSym d end) _).
  by intros [].
Defined.

(** Values.  Numbers are restricted to the integers; the program never
    computes with a number, it only renders a numeric [parentKey] as text.
    Whether an object is callable is fixed when it is created, so it is part
    of the reference. *)
Inductive value :=
| VUndefined
| VNull
| VBool (b : bool)
| VNum (n : Z)
| VStr (s : string)
| VSym (description : string)
| VObj (l : loc)
| VFun (l : loc).

(** An object of the store: own data properties and the prototype link;
    [elems] is [Some] for arrays, whose [length] and index properties are
    derived from the element list.  Objects hold data properties only
    (the specification's tree-shaped data values: no accessors). *)
Record object := Object {
  elems : option (list value);
  props : gmap key value;
  proto : value
}.

Global Instance value_eq_dec : EqDecision value.
Proof. solve_decision. Defined.

Global Instance object_inhabited : Inhabited object :=
  populate (Object None ∅ VNull).

(** The store.  A location outside the map denotes an empty object with a
    [null] prototype, so references never dangle. *)
Abbreviation heap := (gmap loc object).

(** [typeof v]. *)
Definition typeof (v : value) : string :=
  match v with
  | VUndefined => "undefined"
  | VNull => "object"
  | VBool _ => "boolean"
  | VNum _ => "number"
  | VStr _ => "string"
  | VSym _ => "symbol"
  | VObj _ => "object"
  | VFun _ => "function"
  end.

(** [v == null]: true of [null] and [undefined] only. *)
Definition loose_eq_null (v : value) : bool :=
  match v with
  | VUndefined | VNull => true
  | _ => false
  end.

(** [ToBoolean v], the test of [if], [&&] and [||]. *)
Definition truthy (v : value) : bool :=
  match v with
  | VUndefined | VNull => false
  | VBool b => b
  | VNum n => negb (n =? 0)%Z
  | VStr s => negb (bool_decide (s = EmptyString))
  | VSym _ | VObj _ | VFun _ => true
  end.

(** The array index a string key denotes, if any: the [i] below the length
    whose canonical decimal form is the key. *)
Definition array_index (len : nat) (s : string) : option nat :=
  head (filter (fun i => pretty (N.of_nat i) = s) (seq 0 len)).

(** Own property of an object. *)
Definition own_property (o : object) (k : key) : option value :=
  match elems o, k with
  | Some xs, KStr s =>
      if decide (s = "length") then Some (VNum (Z.of_nat (length xs)))
      else match array_index (length xs) s with
           | Some i => xs !! i
           | None => props o !! k
           end
  | _, _ => props o !! k
  end.

(** The ordinary [[Get]]: own property, else up the prototype chain.  The
    chain of a real object is acyclic, so it is walked to its end within
    [S (size σ)] links; on a cyclic chain, which the host never builds, the
    read is [undefined] once the fuel is spent. *)
Fixpoint get_from (fuel : nat) (σ : heap) (l : loc) (k : key) : value :=
  match fuel with
  | O => VUndefined
  | S fuel' =>
      let o := σ !!! l in
      match own_property o k with
      | Some v => v
      | None =>
          match proto o with
          | VObj l' | VFun l' => get_from fuel' σ l' k
          | _ => VUndefined
          end
      end
  end.

(** Property of a string primitive: its length and its characters.  (The
    methods primitives inherit from the built-in prototypes are not modelled;
    [oc] never reads a property of a primitive.) *)
Definition string_property (s : string) (k : key) : value :=
  match k with
  | KStr ks =>
      if decide (ks = "length") then VNum (Z.of_nat (String.length s))
      else match array_index (String.length s) ks with
           | Some i => match String.get i s with
                       | Some c => VStr (String c EmptyString)
                       | None => VUndefined
                       end
           | None => VUndefined
           end
  | KSym _ => VUndefined
  end.

(** [String(key)] for a property key. *)
Definition String_of_key (k : key) : string :=
  match k with
  | KStr s => s
  | KSym d => "Symbol(" ++ d ++ ")"
  end.

End Js.

Export Js.

(** ** Computations: a store threaded through, and exceptions *)

Inductive exn :=
| Error (message : string)
| TypeError (message : string).

Inductive outcome (A : Type) :=
| Ret (a : A)
| Throw (e : exn).
Arguments Ret {A} a.
Arguments Throw {A} e.

Definition M (A : Type) : Type := heap -> outcome A * heap.

Definition ret {A} (a : A) : M A := fun σ => (Ret a, σ).

Definition throw {A} (e : exn) : M A := fun σ => (Throw e, σ).

Definition bind {A B} (m : M A) (f : A -> M B) : M B :=
  fun σ =>
    match m σ with
    | (Ret a, σ') => f a σ'
    | (Throw e, σ') => (Throw e, σ')
    end.

Notation "'let*' x ':=' m 'in' f" := (bind m (fun x => f))
  (at level 10, x name, m at level 100, f at level 200, only parsing).

(** [obj[key]]. *)
Definition get_property (obj : value) (k : key) : M value :=
  fun σ =>
    match obj with
    | VUndefined => (Throw (TypeError "Cannot read properties of undefined"), σ)
    | VNull => (Throw (TypeError "Cannot read properties of null"), σ)
    | VObj l | VFun l => (Ret (get_from (S (size σ)) σ l k), σ)
    | VStr s => (Ret (string_property s k), σ)
    | VBool _ | VNum _ | VSym _ => (Ret VUndefined, σ)
    end.

(** ** The program *)

(** The [parentKey] argument: [string | number | symbol], or left out. *)
Inductive label :=
| LUndefined
| LStr (s : string)
| LNum (n : Z)
| LSym (description : string).

Definition label_of_key (k : key) : label :=
  match k with
  | KStr s => LStr s
  | KSym d => LSym d
  end.

(** [String(parentKey)]. *)
Definition String_of_label (pk : label) : string :=
  match pk with
  | LUndefined => "undefined"
  | LStr s => s
  | LNum n => pretty n
  | LSym d => String_of_key (KSym d)
  end.

(** [errorMsg || dflt] for [errorMsg?: string]: the empty string is falsy. *)
Definition or_else (errorMsg : option string) (dflt : string) : string :=
  match errorMsg with
  | None => dflt
  | Some EmptyString => dflt
  | Some s => s
  end.

(** What [oc] returns: the proxy is determined by the two variables its
    target function and its [get] trap close over.  (The proxy is an object
    whose trap returns proxies of the same kind without end; it is represented
    by its environment, and its two behaviours are [target] and [get].) *)
Record handle := Handle {
  data : value;
  parentKey : label
}.

Definition oc (data : value) (parentKey : label) : handle :=
  Handle data parentKey.

(** The proxy's target, which a call of the handle runs:
    [function (defaultValue) { return data == null ? defaultValue : data; }].
    A call without argument binds [defaultValue] to [undefined]. *)
Definition target (h : handle) (arg : option value) : M value :=
  let defaultValue := default VUndefined arg in
  ret (if loose_eq_null (data h) then defaultValue else data h).

(** The function the [get] trap returns for the key ['_err']:
    [function (errorMsg) { if (data == null) { throw new Error(errorMsg ||
    String(parentKey) + " is not set"); } return data; }]. *)
Definition err_function (h : handle) (errorMsg : option string) : M value :=
  if loose_eq_null (data h)
  then throw (Error (or_else errorMsg (String_of_label (parentKey h) ++ " is not set")))
  else ret (data h).

(** What a property read on a handle yields. *)
Inductive property :=
| StrictCheck (f : option string -> M value)
| Nested (h : handle).

(** [key === '_err']. *)
Definition is_err (k : key) : bool :=
  match k with
  | KStr s => bool_decide (s = "_err")
  | KSym _ => false
  end.

(** The [get] trap. *)
Definition get (h : handle) (k : key) : M property :=
  if is_err k then ret (StrictCheck (err_function h))
  else
    let* obj := target h None in
    let* nested :=
      (if bool_decide (typeof obj = "object") then get_property obj k
       else ret VUndefined) in
    ret (Nested (oc nested (label_of_key k))).

(** A chain of property reads [h.k1.k2...kn] on handles, for data keys.
    Reading ['_err'] leaves the handles: its result is the strict-check
    function, and the chain of handles ends there with [None].  Keys written
    after ['_err'] are host reads on that plain function, not lookups on a
    handle; this chain does not follow them, and the properties below speak
    of chains of data keys. *)
Fixpoint lookups (h : handle) (ks : list key) : M (option handle) :=
  match ks with
  | [] => ret (Some h)
  | k :: ks' =>
      let* p := get h k in
      match p with
      | Nested h' => lookups h' ks'
      | StrictCheck _ => ret None
      end
  end.

(** [h.k1...kn(arg)] for data keys [ks]: the chain, then the terminal
    call.  ([None]: the chain met ['_err'] and ended on no handle.) *)
Definition resolve_from (h : handle) (ks : list key) (arg : option value) : M (option value) :=
  let* r := lookups h ks in
  match r with
  | Some h' => let* v := target h' arg in ret (Some v)
  | None => ret None
  end.

(** [oc(x).k1...kn(arg)]. *)
Definition resolve (x : value) (ks : list key) (arg : option value) : M (option value) :=
  resolve_from (oc x LUndefined) ks arg.

(** Calling what a property read on a handle returned, with an optional
    string argument. *)
Definition call_property (p : property) (arg : option string) : M value :=
  match p with
  | StrictCheck f => f arg
  | Nested h => target h (VStr <$> arg)
  end.

(** [h._err(errorMsg)]. *)
Definition strict_check (h : handle) (errorMsg : option string) : M value :=
  let* p := get h (KStr "_err") in
  call_property p errorMsg.

(** The store a computation leaves. *)
Definition final {A} (m : M A) (σ : heap) : heap := snd (m σ).

(** ** The specification's vocabulary *)

(** Absent: [null] or [undefined]; present: anything else. *)
Definition absent (v : value) : Prop := v = VNull \/ v = VUndefined.
Definition present (v : value) : Prop := ~ absent v.

(** Structured: of mapping or sequence kind. *)
Definition structured (v : value) : bool :=
  match v with
  | VObj _ => true
  | _ => false
  end.

(** A data key: any key but the reserved strict-check selector. *)
Definition data_key (k : key) : Prop := k <> KStr "_err".

(** The guarded direct access [x.p1.p2...] as the specification words it:
    each key is read only if the container is present and structured, and
    the access is [undefined] otherwise. *)
Fixpoint guarded_access (x : value) (p : list key) : M value :=
  match p with
  | [] => ret x
  | k :: p' =>
      if negb (loose_eq_null x) && structured x
      then let* v := get_property x k in guarded_access v p'
      else ret VUndefined
  end.

(** The nested value of one lookup as the specification words it (§4.2,
    steps 2 and 3): the key read from a structured value, absent otherwise. *)
Definition nested_value (σ : heap) (v : value) (k : key) : value :=
  match v with
  | VObj l => get_from (S (size σ)) σ l k
  | _ => VUndefined
  end.

(** The chain along [p] and the argument-less terminal call return the very
    value of the guarded direct access. *)
Definition same_as_guarded_access (σ : heap) (x : value) (p : list key) : Prop :=
  exists v, guarded_access x p σ = (Ret v, σ)
            /\ resolve x p None σ = (Ret (Some v), σ).

(** What the terminal call without argument makes of a value. *)
Definition undefined_if_absent (v : value) : value :=
  if loose_eq_null v then VUndefined else v.

(** The host's assignment [obj[key] = v] of a data property of a
    non-array object, by which a caller changes the source structure between
    two uses of a handle.  (An assignment to an index or to [length] of an
    array changes its elements; that is not modelled, and the properties
    below use [set_property] on objects without elements only.) *)
Definition set_property (l : loc) (k : key) (v : value) : M unit :=
  fun σ =>
    let o := σ !!! l in
    (Ret tt, <[l := Object (elems o) (<[k := v]> (props o)) (proto o)]> σ).

(** ** The scenario of the documentation and the tests *)

Definition Object_prototype : loc := 1.
Definition Array_prototype : loc := 2.
Definition Function_prototype : loc := 3.

Definition builtins : heap :=
  {[ Object_prototype :=
       Object None {[ KStr "toString" := VFun 4 ]} VNull;
     Array_prototype :=
       Object (Some []) {[ KStr "map" := VFun 5 ]} (VObj Object_prototype);
     Function_prototype :=
       Object None {[ KStr "call" := VFun 6 ]} (VObj Object_prototype) ]}.

Definition object_literal (ps : list (string * value)) : object :=
  Object None (list_to_map (prod_map KStr id <$> ps)) (VObj Object_prototype).

Definition array_literal (xs : list value) : object :=
  Object (Some xs) ∅ (VObj Array_prototype).

(** [{a: 'hello', b: {d: 'world'}, c: [-100, 200, -300], d: null,
      e: {f: false}}] at location 10. *)
Definition scenario : heap :=
  <[10 := object_literal [("a", VStr "hello"); ("b", VObj 11); ("c", VObj 12);
                          ("d", VNull); ("e", VObj 13)]]>
  (<[11 := object_literal [("d", VStr "world")]]>
  (<[12 := array_literal [VNum (-100); VNum 200; VNum (-300)]]>
  (<[13 := object_literal [("f", VBool false)]]> builtins))).

(** [{_err: 'mine'}] at location 20, and a function with an own property
    [answer] at location 21. *)
Definition reserved_scenario : heap :=
  <[20 := object_literal [("_err", VStr "mine")]]>
  (<[21 := Object None {[ KStr "answer" := VNum 42 ]} (VObj Function_prototype)]>
   builtins).

(** ** The expressions the tests compare [oc] with *)

(** [a && b] and [a || b]. *)
Definition js_and (a b : M value) : M value :=
  let* v := a in if truthy v then b else ret v.

Definition js_or (a b : M value) : M value :=
  let* v := a in if truthy v then ret v else b.

(** The plain member expression [x.k1.k2...kn]. *)
Fixpoint member (x : value) (p : list key) : M value :=
  match p with
  | [] => ret x
  | k :: p' => let* v := get_property x k in member v p'
  end.

(** [x.k1 && x.k1.k2 && ... && x.k1...kn], the expected value of the test
    'optional chaining equivalence': [&&] associates to the left, and every
    operand is a member expression from the root.  [acc] is the conjunction
    so far, [seen] the keys of its last operand. *)
Fixpoint and_chain_from (x : value) (acc : M value) (seen rest : list key) : M value :=
  match rest with
  | [] => acc
  | k :: rest' =>
      and_chain_from x (js_and acc (member x (seen ++ [k]))) (seen ++ [k]) rest'
  end.

Definition and_chain (x : value) (p : list key) : M value :=
  match p with
  | [] => ret x
  | k :: p' => and_chain_from x (member x [k]) [k] p'
  end.

(** Every value a path passes through before its end is an object or
    [undefined]. *)
Fixpoint passes_objects (σ : heap) (x : value) (p : list key) : bool :=
  match p with
  | [] => true
  | k :: p' =>
      match x with
      | VObj _ => passes_objects σ (nested_value σ x k) p'
      | VUndefined => true
      | _ => false
      end
  end.

(** Every value the path reads a key from is an object, up to the first
    [null] or [undefined].  (Reads of properties of primitives and of
    functions go through built-in prototypes the store need not hold.) *)
Fixpoint reads_objects (σ : heap) (x : value) (p : list key) : bool :=
  match p with
  | [] => true
  | k :: p' =>
      match x with
      | VObj _ => reads_objects σ (nested_value σ x k) p'
      | VUndefined | VNull => true
      | _ => false
      end
  end.

(** What an object inherits for a key: the read from its prototype on. *)
Definition inherited (σ : heap) (o : object) (k : key) : value :=
  match proto o with
  | VObj l' | VFun l' => get_from (size σ) σ l' k
  | _ => VUndefined
  end.

(** The object of the test 'optional chaining equivalence' at location 30:
    [{a: 'hello', b: {d: 'world'},
      c: [{u: {v: -100}}, {u: {v: 200}}, {}, {u: {v: -300}}]}]. *)
Definition equivalence_scenario : heap :=
  <[30 := object_literal [("a", VStr "hello"); ("b", VObj 31); ("c", VObj 32)]]>
  (<[31 := object_literal [("d", VStr "world")]]>
  (<[32 := array_literal [VObj 33; VObj 35; VObj 37; VObj 38]]>
  (<[33 := object_literal [("u", VObj 34)]]>
  (<[34 := object_literal [("v", VNum (-100))]]>
  (<[35 := object_literal [("u", VObj 36)]]>
  (<[36 := object_literal [("v", VNum 200)]]>
  (<[37 := object_literal []]>
  (<[38 := object_literal [("u", VObj 39)]]>
  (<[39 := object_literal [("v", VNum (-300))]]> builtins))))))))).

(** Settles that the keys of a literal path are data keys. *)
Ltac data_keys := repeat constructor; discriminate.

(** * Properties *)

(** ** The vocabulary against the code's tests *)

Lemma loose_eq_null_absent v : loose_eq_null v = true <-> absent v.
Proof.
  unfold absent. destruct v; simpl; split; intros H; try done; auto;
    destruct H; discriminate.
Qed.

Lemma loose_eq_null_present v : loose_eq_null v = false <-> present v.
Proof.
  unfold present. rewrite <- loose_eq_null_absent.
  destruct (loose_eq_null v); split; intros H; congruence.
Qed.

Lemma is_err_data_key k : is_err k = false <-> data_key k.
Proof.
  unfold data_key. destruct k as [s|d]; simpl.
  - rewrite bool_decide_eq_false. split; intros H; [by intros [= ->] | by intros ->].
  - split; intros; done.
Qed.

Lemma is_err_reserved k : is_err k = true <-> k = KStr "_err".
Proof.
  destruct k as [s|d]; simpl.
  - rewrite bool_decide_eq_true. split; [by intros -> | by intros [= ->]].
  - split; intros; done.
Qed.

Lemma absent_undefined_if_absent v : absent v -> undefined_if_absent v = VUndefined.
Proof. intros H. unfold undefined_if_absent. by apply loose_eq_null_absent in H as ->. Qed.

Lemma present_undefined_if_absent v : present v -> undefined_if_absent v = v.
Proof. intros H. unfold undefined_if_absent. by apply loose_eq_null_present in H as ->. Qed.

(** ** One step of each operation *)

Lemma bind_ret {A B} (m : M A) (f : A -> M B) a σ σ' :
  m σ = (Ret a, σ') -> bind m f σ = f a σ'.
Proof. intros H. unfold bind. by rewrite H. Qed.

Lemma target_run h arg σ :
  target h arg σ
  = (Ret (if loose_eq_null (data h) then default VUndefined arg else data h), σ).
Proof. reflexivity. Qed.

Lemma target_no_argument h σ :
  target h None σ = (Ret (undefined_if_absent (data h)), σ).
Proof. reflexivity. Qed.

Lemma get_property_object l k σ :
  get_property (VObj l) k σ = (Ret (nested_value σ (VObj l) k), σ).
Proof. reflexivity. Qed.

Lemma get_reserved h σ :
  get h (KStr "_err") σ = (Ret (StrictCheck (err_function h)), σ).
Proof. reflexivity. Qed.

Lemma get_data_key h k σ :
  data_key k ->
  get h k σ = (Ret (Nested (oc (nested_value σ (data h) k) (label_of_key k))), σ).
Proof.
  intros Hk. apply is_err_data_key in Hk. unfold get. rewrite Hk.
  rewrite (bind_ret _ _ _ _ _ (target_no_argument h σ)).
  destruct h as [v pk]; simpl. by destruct v.
Qed.

Lemma get_absent h k σ :
  absent (data h) -> data_key k ->
  get h k σ = (Ret (Nested (oc VUndefined (label_of_key k))), σ).
Proof.
  intros Ha Hk. rewrite get_data_key by done. by destruct Ha as [-> | ->].
Qed.

Lemma get_returns h k σ : exists p, get h k σ = (Ret p, σ).
Proof.
  destruct (is_err k) eqn:Hk.
  - apply is_err_reserved in Hk as ->. eexists. apply get_reserved.
  - eexists. apply get_data_key. by apply is_err_data_key.
Qed.

Lemma strict_check_run h msg σ : strict_check h msg σ = err_function h msg σ.
Proof. reflexivity. Qed.

Lemma strict_check_present h msg σ :
  present (data h) -> strict_check h msg σ = (Ret (data h), σ).
Proof.
  intros Hp. rewrite strict_check_run. unfold err_function.
  by apply loose_eq_null_present in Hp as ->.
Qed.

Lemma strict_check_absent h msg σ :
  absent (data h) ->
  strict_check h msg σ
  = (Throw (Error (or_else msg (String_of_label (parentKey h) ++ " is not set"))), σ).
Proof.
  intros Ha. rewrite strict_check_run. unfold err_function.
  by apply loose_eq_null_absent in Ha as ->.
Qed.

(** ** Chains of lookups *)

Lemma lookups_cons h k ks σ :
  data_key k ->
  lookups h (k :: ks) σ
  = lookups (oc (nested_value σ (data h) k) (label_of_key k)) ks σ.
Proof.
  intros Hk. simpl. by rewrite (bind_ret _ _ _ _ _ (get_data_key h k σ Hk)).
Qed.

Lemma lookups_reserved h ks σ :
  lookups h (KStr "_err" :: ks) σ = (Ret None, σ).
Proof. reflexivity. Qed.

(** The chain as defined, which ends at the first ['_err'], always returns
    and leaves the store. *)
Lemma lookups_returns h ks σ : exists r, lookups h ks σ = (Ret r, σ).
Proof.
  revert h. induction ks as [|k ks IH]; intros h.
  - by exists (Some h).
  - destruct (is_err k) eqn:Hk.
    + apply is_err_reserved in Hk as ->. exists None. apply lookups_reserved.
    + apply is_err_data_key in Hk. rewrite lookups_cons by done. apply IH.
Qed.

Lemma lookups_data_keys h ks σ :
  Forall data_key ks -> exists h', lookups h ks σ = (Ret (Some h'), σ).
Proof.
  intros Hks. revert h. induction Hks as [|k ks Hk _ IH]; intros h.
  - by exists h.
  - rewrite lookups_cons by done. apply IH.
Qed.

Lemma lookups_app h ks1 ks2 h1 σ :
  lookups h ks1 σ = (Ret (Some h1), σ) ->
  lookups h (ks1 ++ ks2) σ = lookups h1 ks2 σ.
Proof.
  revert h. induction ks1 as [|k ks1 IH]; intros h H.
  - by injection H as ->.
  - destruct (is_err k) eqn:Hk.
    + apply is_err_reserved in Hk as ->. by rewrite lookups_reserved in H.
    + apply is_err_data_key in Hk. simpl app.
      rewrite lookups_cons in H |- * by done. by apply IH.
Qed.

Lemma lookups_absent h ks σ :
  absent (data h) -> Forall data_key ks ->
  exists h', lookups h ks σ = (Ret (Some h'), σ) /\ absent (data h').
Proof.
  intros Ha Hks. revert h Ha. induction Hks as [|k ks Hk _ IH]; intros h Ha.
  - by exists h.
  - rewrite lookups_cons by done. apply IH. simpl.
    destruct Ha as [-> | ->]; by right.
Qed.

Lemma resolve_from_run h ks h' arg σ :
  lookups h ks σ = (Ret (Some h'), σ) ->
  resolve_from h ks arg σ
  = (Ret (Some (if loose_eq_null (data h') then default VUndefined arg
                else data h')), σ).
Proof.
  intros H. unfold resolve_from. by rewrite (bind_ret _ _ _ _ _ H).
Qed.

(** ** The guarded direct access *)

Lemma guarded_access_undefined p σ :
  guarded_access VUndefined p σ = (Ret VUndefined, σ).
Proof. by destruct p. Qed.

Lemma guarded_access_cons x k p σ :
  guarded_access x (k :: p) σ = guarded_access (nested_value σ x k) p σ.
Proof.
  destruct x; simpl; try by rewrite guarded_access_undefined.
  by rewrite (bind_ret _ _ _ _ _ (get_property_object l k σ)).
Qed.

Lemma guarded_access_returns x p σ : exists v, guarded_access x p σ = (Ret v, σ).
Proof.
  revert x. induction p as [|k p IH]; intros x.
  - by exists x.
  - rewrite guarded_access_cons. apply IH.
Qed.

Lemma guarded_access_app x q r w σ :
  guarded_access x q σ = (Ret w, σ) ->
  guarded_access x (q ++ r) σ = guarded_access w r σ.
Proof.
  revert x. induction q as [|k q IH]; intros x H.
  - by injection H as ->.
  - simpl app. rewrite guarded_access_cons in H |- *. by apply IH.
Qed.

Lemma guarded_access_absent w r v σ :
  absent w -> guarded_access w r σ = (Ret v, σ) -> absent v.
Proof.
  intros Ha H. destruct r as [|k r].
  - by injection H as <-.
  - destruct Ha as [-> | ->]; injection H as <-; by right.
Qed.

(** The chain of handles carries, step for step, the value of the guarded
    access. *)
Lemma lookups_guarded_access h p σ :
  Forall data_key p ->
  exists h', lookups h p σ = (Ret (Some h'), σ)
             /\ guarded_access (data h) p σ = (Ret (data h'), σ).
Proof.
  intros Hp. revert h. induction Hp as [|k p Hk _ IH]; intros h.
  - by exists h.
  - rewrite lookups_cons by done. rewrite guarded_access_cons.
    apply (IH (oc (nested_value σ (data h) k) (label_of_key k))).
Qed.

(** ** The documented scenario, evaluated *)

Example scenario_a :
  resolve (VObj 10) [KStr "a"] None scenario = (Ret (Some (VStr "hello")), scenario).
Proof. by vm_compute. Qed.

Example scenario_b_d :
  resolve (VObj 10) [KStr "b"; KStr "d"] None scenario
  = (Ret (Some (VStr "world")), scenario).
Proof. by vm_compute. Qed.

Example scenario_c_0 :
  resolve (VObj 10) [KStr "c"; KStr "0"] None scenario
  = (Ret (Some (VNum (-100))), scenario).
Proof. by vm_compute. Qed.

Example scenario_c_100 :
  resolve (VObj 10) [KStr "c"; KStr "100"] None scenario
  = (Ret (Some VUndefined), scenario).
Proof. by vm_compute. Qed.

Example scenario_c_100_default :
  resolve (VObj 10) [KStr "c"; KStr "100"] (Some (VNum 1234)) scenario
  = (Ret (Some (VNum 1234)), scenario).
Proof. by vm_compute. Qed.

Example scenario_d_e :
  resolve (VObj 10) [KStr "d"; KStr "e"] None scenario
  = (Ret (Some VUndefined), scenario).
Proof. by vm_compute. Qed.

Example scenario_d_e_default :
  resolve (VObj 10) [KStr "d"; KStr "e"] (Some (VStr "fallback")) scenario
  = (Ret (Some (VStr "fallback")), scenario).
Proof. by vm_compute. Qed.

Example scenario_e_f :
  resolve (VObj 10) [KStr "e"; KStr "f"] None scenario
  = (Ret (Some (VBool false)), scenario).
Proof. by vm_compute. Qed.

Example scenario_deep :
  resolve (VObj 10)
    (KStr <$> ["y"; "z"; "a"; "b"; "c"; "d"; "e"; "f"; "g"; "h"; "i"; "j"; "k"])
    None scenario
  = (Ret (Some VUndefined), scenario).
Proof. by vm_compute. Qed.

(** An inherited property is read like an own one, as a direct access does. *)
Example scenario_inherited :
  resolve (VObj 10) [KStr "c"; KStr "map"] None scenario
  = (Ret (Some (VFun 5)), scenario).
Proof. by vm_compute. Qed.

(** ** Traversal against the guarded direct access *)

(** C1, as stated, fails where the path ends on [null]: with [x = {..., d:
    null, ...}] the guarded direct access [x.d] is [null], while
    [oc(x).d()] is [undefined], because the terminal call tests
    [data == null]. *)
Lemma guarded_access_null_differs :
  structured (VObj 10) = true
  /\ Forall data_key [KStr "d"]
  /\ guarded_access (VObj 10) [KStr "d"] scenario = (Ret VNull, scenario)
  /\ resolve (VObj 10) [KStr "d"] None scenario = (Ret (Some VUndefined), scenario)
  /\ ~ same_as_guarded_access scenario (VObj 10) [KStr "d"].
Proof.
  assert (Hg : guarded_access (VObj 10) [KStr "d"] scenario = (Ret VNull, scenario))
    by (by vm_compute).
  assert (Hr : resolve (VObj 10) [KStr "d"] None scenario
               = (Ret (Some VUndefined), scenario)) by (by vm_compute).
  split; [done|]. split; [data_keys|]. split; [done|]. split; [done|].
  intros (v & Hv & Hv'). rewrite Hg in Hv. rewrite Hr in Hv'. congruence.
Qed.

(** C1 (amended): for every root value [x] (structured ones in particular)
    and every path [p] of data keys, [oc(x)] traversed along [p] and called
    without argument returns the value [v] of the guarded direct access
    [x.p1.p2...] with an absent [v] turned into [undefined]: it returns [v]
    itself when [v] is present, and [undefined] whenever a link along [p],
    the last one included, is missing or absent. *)
Theorem resolve_guarded_access (σ : heap) (x : value) (p : list key) :
  Forall data_key p ->
  exists v,
    guarded_access x p σ = (Ret v, σ)
    /\ resolve x p None σ = (Ret (Some (undefined_if_absent v)), σ)
    /\ (present v -> resolve x p None σ = (Ret (Some v), σ))
    /\ (forall q r w,
          p = (q ++ r)%list -> guarded_access x q σ = (Ret w, σ) -> absent w ->
          resolve x p None σ = (Ret (Some VUndefined), σ)).
Proof.
  intros Hp.
  destruct (lookups_guarded_access (oc x LUndefined) p σ Hp) as (h' & Hl & Hg).
  simpl in Hg. exists (data h').
  assert (Hr : resolve x p None σ = (Ret (Some (undefined_if_absent (data h'))), σ))
    by (unfold resolve; by rewrite (resolve_from_run _ _ _ _ _ Hl)).
  split; [done|]. split; [done|]. split.
  - intros Hv. by rewrite Hr, present_undefined_if_absent.
  - intros q r w -> Hq Hw. rewrite Hr.
    rewrite (guarded_access_app _ _ _ _ _ Hq) in Hg.
    by rewrite (absent_undefined_if_absent _ (guarded_access_absent _ _ _ _ Hw Hg)).
Qed.

Lemma resolve_guarded_access_witness :
  Forall data_key [KStr "b"; KStr "d"]
  /\ exists v,
       guarded_access (VObj 10) [KStr "b"; KStr "d"] scenario = (Ret v, scenario)
       /\ resolve (VObj 10) [KStr "b"; KStr "d"] None scenario
          = (Ret (Some (undefined_if_absent v)), scenario).
Proof.
  assert (H : Forall data_key [KStr "b"; KStr "d"])
    by data_keys.
  split; [exact H|].
  destruct (resolve_guarded_access scenario (VObj 10) [KStr "b"; KStr "d"] H)
    as (v & Hg & Hr & _).
  exists v. by split.
Defined.

(** ** The terminal call *)

(** C2: for every wrapped value [v], the terminal call returns [v] when [v]
    is present, whatever the argument; when [v] is absent it returns
    [undefined] without argument and the default [d] with a non-absent
    default; a falsy but present value such as [false] is returned as it
    is. *)
Theorem terminal_call (σ : heap) (v : value) (pk : label) :
  (present v -> forall arg, target (oc v pk) arg σ = (Ret v, σ))
  /\ (absent v -> target (oc v pk) None σ = (Ret VUndefined, σ))
  /\ (absent v -> forall d, present d -> target (oc v pk) (Some d) σ = (Ret d, σ))
  /\ (truthy v = false -> present v ->
      forall arg, target (oc v pk) arg σ = (Ret v, σ))
  /\ (truthy (VBool false) = false
      /\ forall arg, target (oc (VBool false) pk) arg σ = (Ret (VBool false), σ)).
Proof.
  assert (Hp : present v -> forall arg, target (oc v pk) arg σ = (Ret v, σ)).
  { intros H arg. rewrite target_run. simpl.
    by apply loose_eq_null_present in H as ->. }
  assert (Ha : absent v ->
               forall arg, target (oc v pk) arg σ = (Ret (default VUndefined arg), σ)).
  { intros H arg. rewrite target_run. simpl.
    by apply loose_eq_null_absent in H as ->. }
  split; [exact Hp|]. split; [intros H; exact (Ha H None)|].
  split; [intros H d _; exact (Ha H (Some d))|].
  split; [intros _; exact Hp|]. by split.
Qed.

Lemma terminal_call_witness :
  (present (VNum 0) /\ truthy (VNum 0) = false
   /\ target (oc (VNum 0) (LStr "n")) (Some (VNum 7)) scenario
      = (Ret (VNum 0), scenario))
  /\ (absent VNull /\ present (VNum 7)
      /\ target (oc VNull (LStr "d")) None scenario = (Ret VUndefined, scenario)
      /\ target (oc VNull (LStr "d")) (Some (VNum 7)) scenario
         = (Ret (VNum 7), scenario)).
Proof.
  assert (H0 : present (VNum 0)) by (intros [H|H]; discriminate).
  assert (H7 : present (VNum 7)) by (intros [H|H]; discriminate).
  assert (Hn : absent VNull) by (by left).
  destruct (terminal_call scenario (VNum 0) (LStr "n")) as (_ & _ & _ & Hf & _).
  destruct (terminal_call scenario VNull (LStr "d")) as (_ & Hu & Hd & _).
  exact (conj (conj H0 (conj eq_refl (Hf eq_refl H0 (Some (VNum 7)))))
               (conj Hn (conj H7 (conj (Hu Hn) (Hd Hn (VNum 7) H7))))).
Defined.

(** ** The strict check *)

Lemma or_else_given s dflt : s <> EmptyString -> or_else (Some s) dflt = s.
Proof. by destruct s. Qed.

Lemma String_of_label_key k : String_of_label (label_of_key k) = String_of_key k.
Proof. by destruct k. Qed.

Lemma strict_check_throws_iff h msg σ :
  (exists e, strict_check h msg σ = (Throw e, σ)) <-> absent (data h).
Proof.
  split.
  - intros [e He]. apply loose_eq_null_absent.
    destruct (loose_eq_null (data h)) eqn:Hd; [done|].
    apply loose_eq_null_present in Hd.
    by rewrite (strict_check_present _ _ _ Hd) in He.
  - intros Ha. eexists. by apply strict_check_absent.
Qed.

(** C3, as stated, fails for the empty message: [errorMsg || ...] takes the
    empty string for no message, so [oc(undefined, 'a')._err('')] raises
    ["a is not set"], not the supplied (empty) message. *)
Lemma strict_check_empty_message :
  absent (data (oc VUndefined (LStr "a")))
  /\ strict_check (oc VUndefined (LStr "a")) (Some EmptyString) scenario
     = (Throw (Error "a is not set"), scenario)
  /\ strict_check (oc VUndefined (LStr "a")) (Some EmptyString) scenario
     <> (Throw (Error EmptyString), scenario).
Proof.
  split; [by right|]. split; [by vm_compute|]. by vm_compute.
Qed.

(** C3 (amended): the strict check returns the wrapped value unchanged when
    it is present; when it is absent it raises an [Error] whose message is
    the caller's [errorMsg] if one was given and is not the empty string,
    and otherwise (none given, or the empty string) is
    ["<pathLabel> is not set"], where [pathLabel] is the key whose lookup
    produced the handle, and ["undefined"] when no label was recorded. *)
Theorem strict_check_message (σ : heap) (h : handle) :
  (present (data h) -> forall msg, strict_check h msg σ = (Ret (data h), σ))
  /\ (absent (data h) -> forall s, s <> EmptyString ->
      strict_check h (Some s) σ = (Throw (Error s), σ))
  /\ (absent (data h) -> forall msg, msg = None \/ msg = Some EmptyString ->
      strict_check h msg σ
      = (Throw (Error (String_of_label (parentKey h) ++ " is not set")), σ))
  /\ (forall h0 k, get h0 k σ = (Ret (Nested h), σ) ->
      String_of_label (parentKey h) = String_of_key k)
  /\ (parentKey h = LUndefined -> String_of_label (parentKey h) = "undefined").
Proof.
  split; [intros Hp msg; by apply strict_check_present|].
  split.
  { intros Ha s Hs. rewrite strict_check_absent by done.
    by rewrite or_else_given. }
  split.
  { intros Ha msg [-> | ->]; by rewrite strict_check_absent. }
  split; [|by intros ->].
  intros h0 k Hg. destruct (is_err k) eqn:Hk.
  - apply is_err_reserved in Hk as ->. by rewrite get_reserved in Hg.
  - apply is_err_data_key in Hk. rewrite get_data_key in Hg by done.
    injection Hg as <-. apply String_of_label_key.
Qed.

Lemma strict_check_message_witness :
  (present (VBool false)
   /\ strict_check (oc (VBool false) (LStr "f")) None scenario
      = (Ret (VBool false), scenario))
  /\ (absent VNull /\ "gone" <> EmptyString
      /\ strict_check (oc VNull (LStr "d")) (Some "gone") scenario
         = (Throw (Error "gone"), scenario)
      /\ strict_check (oc VNull (LStr "d")) None scenario
         = (Throw (Error "d is not set"), scenario)
      /\ strict_check (oc VNull LUndefined) None scenario
         = (Throw (Error "undefined is not set"), scenario)).
Proof.
  assert (Hf : present (VBool false)) by (intros [H|H]; discriminate).
  assert (Hn : absent VNull) by (by left).
  assert (Hs : "gone" <> EmptyString) by discriminate.
  destruct (strict_check_message scenario (oc (VBool false) (LStr "f")))
    as (Hpres & _).
  destruct (strict_check_message scenario (oc VNull (LStr "d")))
    as (_ & Hgiven & Hgen & _).
  destruct (strict_check_message scenario (oc VNull LUndefined))
    as (_ & _ & Hroot & _).
  exact (conj (conj Hf (Hpres Hf None))
           (conj Hn (conj Hs (conj (Hgiven Hn "gone" Hs)
              (conj (Hgen Hn None (or_introl eq_refl))
                    (Hroot Hn None (or_introl eq_refl))))))).
Defined.

(** ** Totality *)

(** C4: chaining lookups from any starting value along any finite sequence
    of data keys never raises: the result is a handle, on which the read of
    ['_err'] raises nothing either, and once the chain has passed an absent
    value that handle's argument-less terminal call returns [undefined].  A
    lookup and a terminal call never raise; the strict check raises, and
    exactly when the wrapped value is absent. *)
Theorem lookup_total (σ : heap) (v : value) (pk : label) (ks : list key) :
  (Forall data_key ks ->
   exists h f, lookups (oc v pk) ks σ = (Ret (Some h), σ)
               /\ get h (KStr "_err") σ = (Ret (StrictCheck f), σ))
  /\ (Forall data_key ks -> exists h, lookups (oc v pk) ks σ = (Ret (Some h), σ))
  /\ (forall ks1 ks2 hm,
        ks = (ks1 ++ ks2)%list ->
        lookups (oc v pk) ks1 σ = (Ret (Some hm), σ) -> absent (data hm) ->
        Forall data_key ks2 ->
        exists h, lookups (oc v pk) ks σ = (Ret (Some h), σ)
                  /\ target h None σ = (Ret VUndefined, σ))
  /\ (forall h k, exists p, get h k σ = (Ret p, σ))
  /\ (forall h arg, exists w, target h arg σ = (Ret w, σ))
  /\ (forall h msg, (exists e, strict_check h msg σ = (Throw e, σ)) <-> absent (data h)).
Proof.
  split.
  { intros Hks. destruct (lookups_data_keys (oc v pk) ks σ Hks) as [h Hh].
    exists h, (err_function h). split; [done|apply get_reserved]. }
  split; [apply lookups_data_keys|].
  split.
  { intros ks1 ks2 hm -> H1 Ha H2.
    destruct (lookups_absent hm ks2 σ Ha H2) as (h & Hh & Hah).
    exists h. rewrite (lookups_app _ _ _ _ _ H1). split; [done|].
    by rewrite target_no_argument, absent_undefined_if_absent. }
  split; [intros h k; apply get_returns|].
  split; [intros h arg; eexists; apply target_run|].
  intros h msg. apply strict_check_throws_iff.
Qed.

Lemma lookup_total_witness :
  Forall data_key [KStr "d"; KStr "e"; KStr "f"]
  /\ exists h, lookups (oc (VObj 10) LUndefined) [KStr "d"; KStr "e"; KStr "f"] scenario
               = (Ret (Some h), scenario)
               /\ target h None scenario = (Ret VUndefined, scenario).
Proof.
  assert (H2 : Forall data_key [KStr "e"; KStr "f"])
    by data_keys.
  assert (H : Forall data_key [KStr "d"; KStr "e"; KStr "f"])
    by data_keys.
  split; [exact H|].
  destruct (lookup_total scenario (VObj 10) LUndefined [KStr "d"; KStr "e"; KStr "f"])
    as (_ & _ & Hpast & _).
  apply (Hpast [KStr "d"] [KStr "e"; KStr "f"] (oc VNull (LStr "d")));
    [reflexivity | by vm_compute | by left | exact H2].
Defined.

(** ** Propagation of absence *)

(** C5: from a handle whose wrapped value is absent, the lookup of any data
    key yields a handle whose wrapped value is absent again, and so does any
    chain of further lookups; at the end of such a chain the terminal call
    returns its own argument ([undefined] without one), so a present result
    can only be the supplied default, and the strict check raises. *)
Theorem absence_propagates (σ : heap) (h : handle) :
  absent (data h) ->
  (forall k, data_key k ->
     exists h', get h k σ = (Ret (Nested h'), σ) /\ absent (data h'))
  /\ (forall ks, Forall data_key ks ->
      exists h',
        lookups h ks σ = (Ret (Some h'), σ)
        /\ absent (data h')
        /\ (forall arg, target h' arg σ = (Ret (default VUndefined arg), σ))
        /\ (forall arg w, target h' arg σ = (Ret w, σ) -> present w -> arg = Some w)
        /\ (forall msg, exists e, strict_check h' msg σ = (Throw e, σ))).
Proof.
  intros Ha. split.
  - intros k Hk. eexists. split; [by apply get_absent|]. by right.
  - intros ks Hks. destruct (lookups_absent h ks σ Ha Hks) as (h' & Hl & Ha').
    exists h'. split; [done|]. split; [done|].
    assert (Ht : forall arg, target h' arg σ = (Ret (default VUndefined arg), σ)).
    { intros arg. rewrite target_run. by apply loose_eq_null_absent in Ha' as ->. }
    split; [done|]. split.
    + intros arg w Hw Hp. rewrite Ht in Hw. injection Hw as <-.
      destruct arg as [d|]; [done|]. destruct Hp. by right.
    + intros msg. by apply strict_check_throws_iff.
Qed.

Lemma absence_propagates_witness :
  absent (data (oc VNull (LStr "d")))
  /\ Forall data_key [KStr "e"; KStr "f"]
  /\ exists h',
       lookups (oc VNull (LStr "d")) [KStr "e"; KStr "f"] scenario
       = (Ret (Some h'), scenario)
       /\ absent (data h').
Proof.
  assert (Ha : absent (data (oc VNull (LStr "d")))) by (by left).
  assert (Hks : Forall data_key [KStr "e"; KStr "f"])
    by data_keys.
  split; [exact Ha|]. split; [exact Hks|].
  destruct (absence_propagates scenario (oc VNull (LStr "d")) Ha) as (_ & Hchain).
  destruct (Hchain _ Hks) as (h' & Hl & Ha' & _).
  exists h'. by split.
Defined.

(** ** The reserved key *)


(** ** Sequences *)

Lemma array_index_Some len s i :
  array_index len s = Some i <-> i < len /\ pretty (N.of_nat i) = s.
Proof.
  unfold array_index. split.
  - intros H. apply head_Some_elem_of, list_elem_of_filter in H as [Hs Hi].
    apply elem_of_seq in Hi. split; [lia | done].
  - intros [Hi Hs].
    assert (Hin : i ∈ filter (fun j => pretty (N.of_nat j) = s) (seq 0 len)).
    { apply list_elem_of_filter. split; [done|]. apply elem_of_seq. lia. }
    destruct (filter _ _) as [|j js] eqn:Hf; [by apply elem_of_nil in Hin|].
    simpl. f_equal.
    assert (Hj : j ∈ filter (fun j => pretty (N.of_nat j) = s) (seq 0 len))
      by (rewrite Hf; left).
    apply list_elem_of_filter in Hj as [Hj _]. rewrite <- Hs in Hj.
    apply (inj pretty) in Hj. lia.
Qed.

Lemma own_property_length o xs :
  elems o = Some xs ->
  own_property o (KStr "length") = Some (VNum (Z.of_nat (length xs))).
Proof. intros H. unfold own_property. by rewrite H. Qed.

(** The length query is one instance of the lookup rule for data keys. *)
Lemma resolve_from_key h k arg σ :
  data_key k ->
  resolve_from h [k] arg σ
  = (Ret (Some (let v := nested_value σ (data h) k in
                if loose_eq_null v then default VUndefined arg else v)), σ).
Proof.
  intros Hk.
  by rewrite (resolve_from_run h [k] (oc (nested_value σ (data h) k) (label_of_key k)))
    by (by rewrite lookups_cons).
Qed.

(** C7: the lookup of [length] is the general lookup rule at that key; on
    an absent sequence the length query resolves to [undefined], on a
    present sequence of [N] elements it resolves to [N]. *)
Theorem length_query (σ : heap) (pk : label) :
  (forall v,
     get (oc v pk) (KStr "length") σ
     = (Ret (Nested (oc (nested_value σ v (KStr "length")) (LStr "length"))), σ))
  /\ (forall v, absent v ->
      resolve_from (oc v pk) [KStr "length"] None σ = (Ret (Some VUndefined), σ))
  /\ (forall l xs, elems (σ !!! l) = Some xs ->
      resolve_from (oc (VObj l) pk) [KStr "length"] None σ
      = (Ret (Some (VNum (Z.of_nat (length xs)))), σ)).
Proof.
  assert (Hk : data_key (KStr "length")) by discriminate.
  split; [intros v; by rewrite get_data_key|]. split.
  - intros v Ha. rewrite resolve_from_key by done. simpl.
    by destruct Ha as [-> | ->].
  - intros l xs Hxs. rewrite resolve_from_key by done. simpl.
    by rewrite (own_property_length _ _ Hxs).
Qed.

Lemma length_query_witness :
  (absent VNull
   /\ resolve_from (oc VNull (LStr "d")) [KStr "length"] None scenario
      = (Ret (Some VUndefined), scenario))
  /\ (elems (scenario !!! 12) = Some [VNum (-100); VNum 200; VNum (-300)]
      /\ resolve_from (oc (VObj 12) (LStr "c")) [KStr "length"] None scenario
         = (Ret (Some (VNum 3)), scenario)).
Proof.
  assert (Hn : absent VNull) by (by left).
  assert (Hxs : elems (scenario !!! 12) = Some [VNum (-100); VNum 200; VNum (-300)])
    by (by vm_compute).
  destruct (length_query scenario (LStr "d")) as (_ & Habs & _).
  destruct (length_query scenario (LStr "c")) as (_ & _ & Hlen).
  exact (conj (conj Hn (Habs VNull Hn)) (conj Hxs (Hlen 12 _ Hxs))).
Defined.

(** ** Frame: the source structure and the handles *)

Lemma final_get h k σ : final (get h k) σ = σ.
Proof. unfold final. destruct (get_returns h k σ) as [p ->]. done. Qed.

Lemma final_lookups h ks σ : final (lookups h ks) σ = σ.
Proof. unfold final. destruct (lookups_returns h ks σ) as [r ->]. done. Qed.

Lemma final_strict_check h msg σ : final (strict_check h msg) σ = σ.
Proof.
  unfold final. rewrite strict_check_run. unfold err_function.
  by destruct (loose_eq_null (data h)).
Qed.

Lemma nested_value_set_property l k v σ :
  elems (σ !!! l) = None ->
  nested_value (final (set_property l k v) σ) (VObj l) k = v.
Proof.
  intros He. unfold final, set_property. simpl.
  rewrite lookup_total_insert_eq. unfold own_property. simpl.
  by rewrite He, lookup_insert_eq.
Qed.

(** C8: no operation changes the store, so the source structure is left as
    it was; the lookup of a data key depends on the wrapped value and the key
    only (not on the handle's label); the same lookup repeated on the same
    handle yields the same handle again; and nothing is remembered: after
    the caller has assigned the property in the source object, the lookup on
    the old handle yields the new value. *)
Theorem operations_leave_source (σ : heap) (h : handle) (k : key) :
  final (get h k) σ = σ
  /\ (forall arg, final (target h arg) σ = σ)
  /\ (forall msg, final (strict_check h msg) σ = σ)
  /\ (forall ks, final (lookups h ks) σ = σ)
  /\ (forall pk', data_key k -> get (oc (data h) pk') k σ = get h k σ)
  /\ (exists p, (let* p1 := get h k in let* p2 := get h k in ret (p1, p2)) σ
                = (Ret (p, p), σ))
  /\ (forall l v, data h = VObj l -> elems (σ !!! l) = None -> data_key k ->
      (let* _ := set_property l k v in get h k) σ
      = (Ret (Nested (oc v (label_of_key k))), final (set_property l k v) σ)).
Proof.
  split; [apply final_get|]. split; [done|].
  split; [intros msg; apply final_strict_check|].
  split; [intros ks; apply final_lookups|].
  split; [intros pk' Hk; by rewrite !get_data_key|].
  split.
  - destruct (get_returns h k σ) as [p Hp]. exists p.
    rewrite (bind_ret _ _ _ _ _ Hp). by rewrite (bind_ret _ _ _ _ _ Hp).
  - intros l v Hd He Hk.
    rewrite (bind_ret _ _ tt σ (final (set_property l k v) σ)) by done.
    rewrite get_data_key by done. rewrite Hd.
    by rewrite nested_value_set_property.
Qed.

Lemma operations_leave_source_witness :
  data_key (KStr "a")
  /\ data (oc (VObj 10) LUndefined) = VObj 10
  /\ elems (scenario !!! 10) = None
  /\ get (oc (VObj 10) (LStr "x")) (KStr "a") scenario
     = get (oc (VObj 10) LUndefined) (KStr "a") scenario
  /\ (let* _ := set_property 10 (KStr "a") (VStr "bye") in
      get (oc (VObj 10) LUndefined) (KStr "a")) scenario
     = (Ret (Nested (oc (VStr "bye") (LStr "a"))),
        final (set_property 10 (KStr "a") (VStr "bye")) scenario).
Proof.
  assert (Hk : data_key (KStr "a")) by discriminate.
  assert (He : elems (scenario !!! 10) = None) by (by vm_compute).
  destruct (operations_leave_source scenario (oc (VObj 10) LUndefined) (KStr "a"))
    as (_ & _ & _ & _ & Hdet & _ & Hfresh).
  exact (conj Hk (conj eq_refl (conj He
           (conj (Hdet (LStr "x") Hk) (Hfresh 10 (VStr "bye") eq_refl He Hk))))).
Defined.

(** ** What counts as structured *)

Lemma nested_value_not_object σ v k :
  typeof v <> "object" -> nested_value σ v k = VUndefined.
Proof. intros H. by destruct v. Qed.

Lemma get_not_object h k σ :
  data_key k -> typeof (data h) <> "object" ->
  get h k σ = (Ret (Nested (oc VUndefined (label_of_key k))), σ).
Proof.
  intros Hk Ht. rewrite get_data_key by done.
  by rewrite nested_value_not_object.
Qed.

(** C9: the test for a structured value is [typeof obj === 'object'], so on
    a handle wrapping a function, and on one wrapping a string or any other
    value whose [typeof] is not ['object'], the lookup of any data key yields
    a handle whose wrapped value is absent, although a direct read of a
    property of the function or of the string finds it. *)
Theorem function_not_structured (σ : heap) (pk : label) (k : key) :
  data_key k ->
  (forall l, get (oc (VFun l) pk) k σ
             = (Ret (Nested (oc VUndefined (label_of_key k))), σ))
  /\ (forall v, typeof v <> "object" ->
      get (oc v pk) k σ = (Ret (Nested (oc VUndefined (label_of_key k))), σ))
  /\ (forall v h', get (oc v pk) k σ = (Ret (Nested h'), σ) -> present (data h') ->
      typeof v = "object")
  /\ (get_property (VFun 21) (KStr "answer") reserved_scenario
      = (Ret (VNum 42), reserved_scenario)
      /\ get (oc (VFun 21) pk) (KStr "answer") reserved_scenario
         = (Ret (Nested (oc VUndefined (LStr "answer"))), reserved_scenario))
  /\ (get_property (VStr "abc") (KStr "length") σ = (Ret (VNum 3), σ)
      /\ get (oc (VStr "abc") pk) (KStr "length") σ
         = (Ret (Nested (oc VUndefined (LStr "length"))), σ)).
Proof.
  intros Hk.
  split; [intros l; by apply get_not_object|].
  split; [intros v Hv; by apply get_not_object|].
  split.
  { intros v h' Hg Hp.
    destruct (decide (typeof v = "object")) as [|Hn]; [done|].
    rewrite get_not_object in Hg by done. injection Hg as <-.
    destruct Hp. by right. }
  split; [split; by vm_compute|]. split; by vm_compute.
Qed.

Lemma function_not_structured_witness :
  data_key (KStr "call")
  /\ get_property (VFun 21) (KStr "call") reserved_scenario
     = (Ret (VFun 6), reserved_scenario)
  /\ get (oc (VFun 21) LUndefined) (KStr "call") reserved_scenario
     = (Ret (Nested (oc VUndefined (LStr "call"))), reserved_scenario).
Proof.
  assert (Hk : data_key (KStr "call")) by discriminate.
  destruct (function_not_structured reserved_scenario LUndefined (KStr "call") Hk)
    as (Hfun & _).
  split; [exact Hk|]. split; [by vm_compute|]. exact (Hfun 21).
Defined.

(** ** No read through [null] *)

Lemma target_object h obj σ :
  target h None σ = (Ret obj, σ) -> typeof obj = "object" ->
  exists l, obj = VObj l /\ data h = VObj l.
Proof.
  rewrite target_no_argument. intros [= <-] Ht.
  destruct h as [v pk]; simpl in *. destruct v; try done. by exists l.
Qed.

(** C10: although [typeof null] is ['object'] and a property read on [null]
    raises a [TypeError], the lookup of a data key on a handle wrapping
    [null] raises nothing and yields an absent handle: the terminal call
    without argument has turned [null] into [undefined] before the test, and
    whenever the value it returns passes the test, that value is a (non-null)
    object. *)
Theorem lookup_on_null (σ : heap) (pk : label) (k : key) :
  data_key k ->
  typeof VNull = "object"
  /\ (exists e, get_property VNull k σ = (Throw (TypeError e), σ))
  /\ target (oc VNull pk) None σ = (Ret VUndefined, σ)
  /\ get (oc VNull pk) k σ = (Ret (Nested (oc VUndefined (label_of_key k))), σ)
  /\ (forall h obj, target h None σ = (Ret obj, σ) -> typeof obj = "object" ->
      exists l, obj = VObj l /\ get_property obj k σ = (Ret (nested_value σ obj k), σ))
  /\ (forall h, exists h', get h k σ = (Ret (Nested h'), σ)).
Proof.
  intros Hk. split; [done|]. split; [by eexists|]. split; [done|].
  split; [by apply get_absent; [left|]|]. split.
  - intros h obj Ht Ho. destruct (target_object _ _ _ Ht Ho) as (l & -> & _).
    by exists l.
  - intros h. eexists. by apply get_data_key.
Qed.

Lemma lookup_on_null_witness :
  data_key (KStr "e")
  /\ get (oc VNull (LStr "d")) (KStr "e") scenario
     = (Ret (Nested (oc VUndefined (LStr "e"))), scenario).
Proof.
  assert (Hk : data_key (KStr "e")) by discriminate.
  destruct (lookup_on_null scenario (LStr "d") (KStr "e") Hk) as (_ & _ & _ & Hg & _).
  exact (conj Hk Hg).
Defined.

(** * Further properties of [oc] *)

(** ** Splitting a chain *)

Lemma nested_value_undefined_if_absent σ v k :
  nested_value σ (undefined_if_absent v) k = nested_value σ v k.
Proof. by destruct v. Qed.

Lemma resolve_from_cons h k ks arg σ :
  data_key k ->
  resolve_from h (k :: ks) arg σ
  = resolve_from (oc (nested_value σ (data h) k) (label_of_key k)) ks arg σ.
Proof. intros Hk. unfold resolve_from, bind. by rewrite lookups_cons. Qed.

(** What a handle resolves to depends on its wrapped value only, with
    [null] and [undefined] alike. *)
Lemma resolve_from_data h1 h2 ks arg σ :
  undefined_if_absent (data h1) = undefined_if_absent (data h2) ->
  resolve_from h1 ks arg σ = resolve_from h2 ks arg σ.
Proof.
  intros Hd. destruct ks as [|k ks].
  - rewrite !(resolve_from_run _ [] _ _ _ eq_refl).
    destruct h1 as [d1 ?], h2 as [d2 ?]. unfold undefined_if_absent in Hd.
    simpl in *. destruct d1, d2; simpl in *; congruence.
  - destruct (is_err k) eqn:Hk.
    + by apply is_err_reserved in Hk as ->.
    + apply is_err_data_key in Hk. rewrite !resolve_from_cons by done.
      rewrite <- (nested_value_undefined_if_absent σ (data h1)), Hd.
      by rewrite nested_value_undefined_if_absent.
Qed.

Lemma resolve_Some_lookups h ks arg v σ :
  resolve_from h ks arg σ = (Ret (Some v), σ) ->
  exists h', lookups h ks σ = (Ret (Some h'), σ)
             /\ v = (if loose_eq_null (data h') then default VUndefined arg
                     else data h').
Proof.
  intros H. destruct (lookups_returns h ks σ) as [[h'|] Hl].
  - exists h'. split; [done|].
    rewrite (resolve_from_run _ _ _ _ _ Hl) in H. congruence.
  - unfold resolve_from in H. by rewrite (bind_ret _ _ _ _ _ Hl) in H.
Qed.

Lemma resolve_from_app h p q h' arg σ :
  lookups h p σ = (Ret (Some h'), σ) ->
  resolve_from h (p ++ q) arg σ = resolve_from h' q arg σ.
Proof. intros H. unfold resolve_from, bind. by rewrite (lookups_app _ _ _ _ _ H). Qed.

(** X1: a chain of data keys can be cut anywhere.  If [oc(x).p()] is [v],
    then [oc(x).p.q(arg)] returns the value that [oc(v).q(arg)] returns, for
    every continuation [q] of data keys and every argument. *)
Theorem resolve_split (σ : heap) (x v : value) (p q : list key) (arg : option value) :
  Forall data_key p -> Forall data_key q ->
  resolve x p None σ = (Ret (Some v), σ) ->
  exists r, resolve v q arg σ = (Ret (Some r), σ)
            /\ resolve x (p ++ q) arg σ = (Ret (Some r), σ).
Proof.
  intros _ Hq H.
  destruct (lookups_data_keys (oc v LUndefined) q σ Hq) as [hq Hhq].
  eexists. split; [unfold resolve; by rewrite (resolve_from_run _ _ _ _ _ Hhq)|].
  rewrite <- (resolve_from_run _ _ _ arg _ Hhq). fold (resolve v q arg).
  apply resolve_Some_lookups in H as (h' & Hl & ->).
  unfold resolve. rewrite (resolve_from_app _ _ _ _ _ _ Hl).
  apply (resolve_from_data h' (oc _ LUndefined)). simpl.
  by destruct (data h').
Qed.

Lemma resolve_split_witness :
  Forall data_key [KStr "c"] /\ Forall data_key [KStr "0"]
  /\ resolve (VObj 10) [KStr "c"] None scenario = (Ret (Some (VObj 12)), scenario)
  /\ exists r,
       resolve (VObj 12) [KStr "0"] None scenario = (Ret (Some r), scenario)
       /\ resolve (VObj 10) ([KStr "c"] ++ [KStr "0"]) None scenario
          = (Ret (Some r), scenario).
Proof.
  assert (Hp : Forall data_key [KStr "c"]) by data_keys.
  assert (Hq : Forall data_key [KStr "0"]) by data_keys.
  assert (H : resolve (VObj 10) [KStr "c"] None scenario
              = (Ret (Some (VObj 12)), scenario)) by (by vm_compute).
  exact (conj Hp (conj Hq (conj H
           (resolve_split scenario (VObj 10) (VObj 12) [KStr "c"] [KStr "0"] None
              Hp Hq H)))).
Defined.

(** ** The strict check at the end of a chain *)

Lemma lookups_last_label h p k h' σ :
  lookups h (p ++ [k]) σ = (Ret (Some h'), σ) -> parentKey h' = label_of_key k.
Proof.
  revert h. induction p as [|k0 p IH]; intros h H; simpl app in H.
  - destruct (is_err k) eqn:Hk.
    + apply is_err_reserved in Hk as ->. by rewrite lookups_reserved in H.
    + apply is_err_data_key in Hk. rewrite lookups_cons in H by done.
      by injection H as <-.
  - destruct (is_err k0) eqn:Hk.
    + apply is_err_reserved in Hk as ->. by rewrite lookups_reserved in H.
    + apply is_err_data_key in Hk. rewrite lookups_cons in H by done.
      by apply IH in H.
Qed.

(** X2: [oc(x).p.k._err(msg)] returns the value of the guarded direct
    access [x.p.k] when that value is present; when it is absent, the call
    without message raises ["<k> is not set"]: the message names the last key
    of the chain only. *)
Theorem strict_check_path (σ : heap) (x : value) (p : list key) (k : key) :
  Forall data_key (p ++ [k]) ->
  exists h v,
    lookups (oc x LUndefined) (p ++ [k]) σ = (Ret (Some h), σ)
    /\ guarded_access x (p ++ [k]) σ = (Ret v, σ)
    /\ (present v -> forall msg, strict_check h msg σ = (Ret v, σ))
    /\ (absent v ->
        strict_check h None σ
        = (Throw (Error (String_of_key k ++ " is not set")), σ)).
Proof.
  intros Hp.
  destruct (lookups_guarded_access (oc x LUndefined) _ σ Hp) as (h & Hl & Hg).
  exists h, (data h). split; [done|]. split; [done|]. split.
  - intros Hv msg. by apply strict_check_present.
  - intros Hv. rewrite strict_check_absent by done. simpl.
    by rewrite (lookups_last_label _ _ _ _ _ Hl), String_of_label_key.
Qed.

Lemma strict_check_path_witness :
  Forall data_key ([KStr "c"] ++ [KStr "100"])
  /\ exists h,
       lookups (oc (VObj 10) LUndefined) ([KStr "c"] ++ [KStr "100"]) scenario
       = (Ret (Some h), scenario)
       /\ strict_check h None scenario
          = (Throw (Error "100 is not set"), scenario).
Proof.
  assert (Hp : Forall data_key ([KStr "c"] ++ [KStr "100"])) by data_keys.
  split; [exact Hp|].
  destruct (strict_check_path scenario (VObj 10) [KStr "c"] (KStr "100") Hp)
    as (h & v & Hl & Hg & _ & Habs).
  exists h. split; [exact Hl|]. apply Habs.
  assert (Hv : guarded_access (VObj 10) ([KStr "c"] ++ [KStr "100"]) scenario
               = (Ret VUndefined, scenario)) by (by vm_compute).
  rewrite Hv in Hg. injection Hg as <-. by right.
Defined.

(** X3: the strict check either returns a present value or raises an
    [Error] (never a [TypeError]) whose message is not empty; it leaves the
    store as it was in both cases. *)
Theorem strict_check_outcome (σ : heap) (h : handle) (msg : option string) :
  (exists v, strict_check h msg σ = (Ret v, σ) /\ present v /\ v = data h)
  \/ (exists m, strict_check h msg σ = (Throw (Error m), σ) /\ m <> EmptyString).
Proof.
  destruct (loose_eq_null (data h)) eqn:Hd.
  - right. apply loose_eq_null_absent in Hd. eexists. split.
    + by apply strict_check_absent.
    + destruct msg as [[|c s]|]; simpl; try done;
        by destruct (String_of_label (parentKey h)).
  - left. apply loose_eq_null_present in Hd. exists (data h).
    split; [by apply strict_check_present|]. by split.
Qed.

(** ** The terminal call with a default *)

(** X4: after any chain of data keys the terminal call returns the value
    of the guarded direct access when that is present and its own argument
    otherwise; so with a present default the result is present, and with the
    default [null] it is never [undefined]. *)
Theorem resolve_default (σ : heap) (x : value) (p : list key) (arg : option value) :
  Forall data_key p ->
  exists v r,
    guarded_access x p σ = (Ret v, σ)
    /\ resolve x p arg σ = (Ret (Some r), σ)
    /\ (present v -> r = v)
    /\ (absent v -> r = default VUndefined arg)
    /\ (forall d, arg = Some d -> present d -> present r)
    /\ (arg = Some VNull -> r <> VUndefined).
Proof.
  intros Hp.
  destruct (lookups_guarded_access (oc x LUndefined) p σ Hp) as (h & Hl & Hg).
  exists (data h). eexists. split; [done|].
  split; [unfold resolve; by rewrite (resolve_from_run _ _ _ _ _ Hl)|].
  destruct (loose_eq_null (data h)) eqn:Hd.
  - apply loose_eq_null_absent in Hd as Ha.
    split; [by intros []|]. split; [done|]. split.
    + by intros d -> Hpd.
    + by intros ->.
  - apply loose_eq_null_present in Hd as Hpres.
    split; [done|]. split; [by intros ?|]. split; [done|].
    intros _ Hu. apply Hpres. by right.
Qed.

Lemma resolve_default_witness :
  Forall data_key [KStr "d"; KStr "e"]
  /\ present (VStr "fallback")
  /\ exists r,
       resolve (VObj 10) [KStr "d"; KStr "e"] (Some (VStr "fallback")) scenario
       = (Ret (Some r), scenario)
       /\ present r.
Proof.
  assert (Hp : Forall data_key [KStr "d"; KStr "e"]) by data_keys.
  assert (Hd : present (VStr "fallback")) by (intros [H|H]; discriminate).
  destruct (resolve_default scenario (VObj 10) [KStr "d"; KStr "e"]
              (Some (VStr "fallback")) Hp) as (v & r & _ & Hr & _ & _ & Hpres & _).
  split; [exact Hp|]. split; [exact Hd|].
  exists r. split; [exact Hr|]. exact (Hpres _ eq_refl Hd).
Defined.

(** ** Against the plain member expression *)

Lemma member_app x q r w σ :
  member x q σ = (Ret w, σ) -> member x (q ++ r) σ = member w r σ.
Proof.
  revert x. induction q as [|k q IH]; intros x H.
  - by injection H as ->.
  - simpl in *. unfold bind in *.
    destruct (get_property x k σ) as [[v|e] σ'] eqn:Hg; [|done].
    assert (σ' = σ) as -> by (destruct x; simpl in Hg; congruence).
    by apply IH.
Qed.

Lemma member_throws_absent x p e σ :
  member x p σ = (Throw e, σ) ->
  exists v, guarded_access x p σ = (Ret v, σ) /\ absent v.
Proof.
  revert x. induction p as [|k p IH]; intros x H; [done|].
  rewrite guarded_access_cons.
  destruct x; simpl in H; unfold bind in H; simpl in H;
    try (rewrite guarded_access_undefined; exists VUndefined; split; [done|by right]).
  by apply IH in H.
Qed.

(** X5: for a path of data keys that reads from objects only, up to the
    first [null] or [undefined]: where the plain member expression
    [x.k1...kn] raises a [TypeError] (it reads a property of [null] or
    [undefined] on the way), the chain [oc(x).k1...kn()] raises nothing and
    returns [undefined], and with an argument it returns the argument. *)
Theorem resolve_where_member_throws
    (σ : heap) (x : value) (p : list key) (e : exn) (arg : option value) :
  Forall data_key p ->
  reads_objects σ x p = true ->
  member x p σ = (Throw e, σ) ->
  resolve x p arg σ = (Ret (Some (default VUndefined arg)), σ).
Proof.
  intros Hp _ Hm.
  destruct (member_throws_absent _ _ _ _ Hm) as (v & Hg & Ha).
  destruct (lookups_guarded_access (oc x LUndefined) p σ Hp) as (h & Hl & Hg').
  simpl in Hg'. rewrite Hg in Hg'. injection Hg' as ->.
  unfold resolve. rewrite (resolve_from_run _ _ _ _ _ Hl).
  by apply loose_eq_null_absent in Ha as ->.
Qed.

Lemma resolve_where_member_throws_witness :
  Forall data_key [KStr "d"; KStr "e"; KStr "f"]
  /\ reads_objects scenario (VObj 10) [KStr "d"; KStr "e"; KStr "f"] = true
  /\ member (VObj 10) [KStr "d"; KStr "e"; KStr "f"] scenario
     = (Throw (TypeError "Cannot read properties of null"), scenario)
  /\ resolve (VObj 10) [KStr "d"; KStr "e"; KStr "f"] None scenario
     = (Ret (Some VUndefined), scenario).
Proof.
  assert (Hp : Forall data_key [KStr "d"; KStr "e"; KStr "f"]) by data_keys.
  assert (Hm : member (VObj 10) [KStr "d"; KStr "e"; KStr "f"] scenario
               = (Throw (TypeError "Cannot read properties of null"), scenario))
    by (by vm_compute).
  assert (Hr : reads_objects scenario (VObj 10) [KStr "d"; KStr "e"; KStr "f"] = true)
    by (by vm_compute).
  exact (conj Hp (conj Hr (conj Hm
           (resolve_where_member_throws scenario (VObj 10) _ _ None Hp Hr Hm)))).
Defined.

(** ** Against the [&&] chains of the tests *)

Lemma and_chain_from_falsy x acc seen rest v σ :
  acc σ = (Ret v, σ) -> truthy v = false ->
  and_chain_from x acc seen rest σ = (Ret v, σ).
Proof.
  revert acc seen. induction rest as [|k rest IH]; intros acc seen Hacc Hv; [done|].
  simpl. apply IH; [|done]. unfold js_and, bind. by rewrite Hacc, Hv.
Qed.

Lemma and_chain_from_guarded x acc seen rest w σ :
  member x seen σ = (Ret w, σ) -> acc σ = (Ret w, σ) ->
  passes_objects σ w rest = true ->
  and_chain_from x acc seen rest σ = guarded_access w rest σ.
Proof.
  revert acc seen w. induction rest as [|k rest IH]; intros acc seen w Hm Hacc Hp;
    [done|].
  rewrite guarded_access_cons. destruct w; try done.
  - rewrite guarded_access_undefined. by apply (and_chain_from_falsy _ _ _ _ VUndefined).
  - simpl in Hp. simpl and_chain_from.
    assert (Hm' : member x (seen ++ [k]) σ
                  = (Ret (nested_value σ (VObj l) k), σ))
      by (by rewrite (member_app _ _ _ _ _ Hm)).
    apply IH; [done| |done].
    unfold js_and, bind. by rewrite Hacc.
Qed.

Lemma and_chain_guarded l p σ :
  passes_objects σ (VObj l) p = true ->
  and_chain (VObj l) p σ = guarded_access (VObj l) p σ.
Proof.
  destruct p as [|k p]; [done|]. intros Hp. simpl in Hp.
  rewrite guarded_access_cons. simpl and_chain.
  by apply and_chain_from_guarded.
Qed.

(** X6: the equivalence the tests assert.  For an object [x] and a path of
    data keys that passes only through objects or [undefined] before its
    end, [oc(x).k1...kn()] is the value [v] of
    [x.k1 && x.k1.k2 && ... && x.k1...kn], except that a final [null]
    comes out as [undefined]. *)
Theorem and_chain_equivalence (σ : heap) (l : loc) (p : list key) :
  Forall data_key p ->
  passes_objects σ (VObj l) p = true ->
  exists v,
    and_chain (VObj l) p σ = (Ret v, σ)
    /\ resolve (VObj l) p None σ = (Ret (Some (undefined_if_absent v)), σ)
    /\ (v <> VNull -> resolve (VObj l) p None σ = (Ret (Some v), σ)).
Proof.
  intros Hk Hp.
  destruct (lookups_guarded_access (oc (VObj l) LUndefined) p σ Hk) as (h & Hl & Hg).
  exists (data h). rewrite (and_chain_guarded _ _ _ Hp).
  split; [done|].
  assert (Hr : resolve (VObj l) p None σ
               = (Ret (Some (undefined_if_absent (data h))), σ))
    by (unfold resolve; by rewrite (resolve_from_run _ _ _ _ _ Hl)).
  split; [done|]. intros Hn. rewrite Hr. by destruct (data h).
Qed.

Lemma and_chain_equivalence_witness :
  Forall data_key [KStr "c"; KStr "0"; KStr "u"; KStr "v"]
  /\ passes_objects equivalence_scenario (VObj 30)
       [KStr "c"; KStr "0"; KStr "u"; KStr "v"] = true
  /\ exists v,
       and_chain (VObj 30) [KStr "c"; KStr "0"; KStr "u"; KStr "v"]
         equivalence_scenario = (Ret v, equivalence_scenario)
       /\ resolve (VObj 30) [KStr "c"; KStr "0"; KStr "u"; KStr "v"] None
            equivalence_scenario
          = (Ret (Some (undefined_if_absent v)), equivalence_scenario).
Proof.
  assert (Hk : Forall data_key [KStr "c"; KStr "0"; KStr "u"; KStr "v"])
    by data_keys.
  assert (Hp : passes_objects equivalence_scenario (VObj 30)
                 [KStr "c"; KStr "0"; KStr "u"; KStr "v"] = true)
    by (by vm_compute).
  split; [exact Hk|]. split; [exact Hp|].
  destruct (and_chain_equivalence equivalence_scenario 30 _ Hk Hp)
    as (v & Ha & Hr & _).
  exists v. by split.
Defined.

(** X7: with a default.  Under the same conditions [oc(x).k1...kn(d)]
    agrees with [(x.k1 && ... && x.k1...kn) || d] when the chain's value
    is truthy or absent; when it is falsy but present ([false], [0], the
    empty string), [oc] returns the value where [||] returns [d]. *)
Theorem or_default_equivalence (σ : heap) (l : loc) (p : list key) (d : value) :
  Forall data_key p ->
  passes_objects σ (VObj l) p = true ->
  exists v,
    and_chain (VObj l) p σ = (Ret v, σ)
    /\ js_or (and_chain (VObj l) p) (ret d) σ = (Ret (if truthy v then v else d), σ)
    /\ resolve (VObj l) p (Some d) σ
       = (Ret (Some (if loose_eq_null v then d else v)), σ)
    /\ (truthy v = true \/ absent v ->
        resolve (VObj l) p (Some d) σ
        = (Ret (Some (if truthy v then v else d)), σ))
    /\ (truthy v = false -> present v ->
        resolve (VObj l) p (Some d) σ = (Ret (Some v), σ)
        /\ js_or (and_chain (VObj l) p) (ret d) σ = (Ret d, σ)).
Proof.
  intros Hk Hp.
  destruct (lookups_guarded_access (oc (VObj l) LUndefined) p σ Hk) as (h & Hl & Hg).
  exists (data h). simpl in Hg. rewrite <- (and_chain_guarded _ _ _ Hp) in Hg.
  assert (Hor : js_or (and_chain (VObj l) p) (ret d) σ
                = (Ret (if truthy (data h) then data h else d), σ)).
  { unfold js_or, bind. rewrite Hg. by destruct (truthy (data h)). }
  assert (Hr : resolve (VObj l) p (Some d) σ
               = (Ret (Some (if loose_eq_null (data h) then d else data h)), σ))
    by (unfold resolve; by rewrite (resolve_from_run _ _ _ _ _ Hl)).
  split; [done|]. split; [done|]. split; [done|]. split.
  - intros [Ht|Ha]; rewrite Hr.
    + rewrite Ht. by destruct (data h).
    + by destruct Ha as [-> | ->].
  - intros Ht Hv. rewrite Hr, Hor, Ht.
    by apply loose_eq_null_present in Hv as ->.
Qed.

Lemma or_default_equivalence_witness :
  Forall data_key [KStr "c"; KStr "100"; KStr "u"; KStr "v"]
  /\ passes_objects equivalence_scenario (VObj 30)
       [KStr "c"; KStr "100"; KStr "u"; KStr "v"] = true
  /\ js_or (and_chain (VObj 30) [KStr "c"; KStr "100"; KStr "u"; KStr "v"])
       (ret (VNum 1234)) equivalence_scenario
     = (Ret (VNum 1234), equivalence_scenario)
  /\ resolve (VObj 30) [KStr "c"; KStr "100"; KStr "u"; KStr "v"]
       (Some (VNum 1234)) equivalence_scenario
     = (Ret (Some (VNum 1234)), equivalence_scenario).
Proof.
  assert (Hk : Forall data_key [KStr "c"; KStr "100"; KStr "u"; KStr "v"])
    by data_keys.
  assert (Hp : passes_objects equivalence_scenario (VObj 30)
                 [KStr "c"; KStr "100"; KStr "u"; KStr "v"] = true)
    by (by vm_compute).
  split; [exact Hk|]. split; [exact Hp|].
  destruct (or_default_equivalence equivalence_scenario 30 _ (VNum 1234) Hk Hp)
    as (v & Ha & Hor & Hr & _).
  assert (Hv : and_chain (VObj 30) [KStr "c"; KStr "100"; KStr "u"; KStr "v"]
                 equivalence_scenario = (Ret VUndefined, equivalence_scenario))
    by (by vm_compute).
  rewrite Hv in Ha. injection Ha as <-. by split.
Defined.

Lemma member_guarded l p v σ :
  passes_objects σ (VObj l) p = true ->
  member (VObj l) p σ = (Ret v, σ) ->
  guarded_access (VObj l) p σ = (Ret v, σ).
Proof.
  revert l. induction p as [|k p IH]; intros l Hp Hm; [done|].
  rewrite guarded_access_cons.
  assert (Hm' : member (nested_value σ (VObj l) k) p σ = (Ret v, σ)) by exact Hm.
  assert (Hp' : passes_objects σ (nested_value σ (VObj l) k) p = true) by exact Hp.
  clear Hm Hp. destruct p as [|k' p]; [done|].
  destruct (nested_value σ (VObj l) k) as [| | | | | |l'|]; try done.
  by apply IH.
Qed.

(** X8: for a path of data keys: where the plain member expression
    [x.k1...kn] passes through objects only and evaluates to a present value
    [v], the chain [oc(x).k1...kn(arg)] returns [v] for every argument.  In particular,
    when [v] is a function (a method found on the way), calling the handle
    returns the function itself: the method is not invoked and the argument
    is not passed to it. *)
Theorem resolve_where_member_returns
    (σ : heap) (l : loc) (p : list key) (v : value) (arg : option value) :
  Forall data_key p ->
  passes_objects σ (VObj l) p = true ->
  member (VObj l) p σ = (Ret v, σ) ->
  present v ->
  resolve (VObj l) p arg σ = (Ret (Some v), σ)
  /\ (forall f, v = VFun f ->
      exists r, resolve (VObj l) p arg σ = (Ret (Some r), σ)
                /\ typeof r = "function").
Proof.
  intros Hk Hp Hm Hv.
  destruct (lookups_guarded_access (oc (VObj l) LUndefined) p σ Hk) as (h & Hl & Hg).
  simpl in Hg. rewrite (member_guarded _ _ _ _ Hp Hm) in Hg. injection Hg as Hd.
  assert (Hr : resolve (VObj l) p arg σ = (Ret (Some v), σ)).
  { unfold resolve. rewrite (resolve_from_run _ _ _ _ _ Hl), <- Hd.
    by apply loose_eq_null_present in Hv as ->. }
  split; [done|]. intros f ->. by exists (VFun f).
Qed.

Lemma resolve_where_member_returns_witness :
  Forall data_key [KStr "c"; KStr "map"]
  /\ passes_objects scenario (VObj 10) [KStr "c"; KStr "map"] = true
  /\ member (VObj 10) [KStr "c"; KStr "map"] scenario = (Ret (VFun 5), scenario)
  /\ present (VFun 5)
  /\ resolve (VObj 10) [KStr "c"; KStr "map"] (Some (VFun 7)) scenario
     = (Ret (Some (VFun 5)), scenario).
Proof.
  assert (Hk : Forall data_key [KStr "c"; KStr "map"]) by data_keys.
  assert (Hp : passes_objects scenario (VObj 10) [KStr "c"; KStr "map"] = true)
    by (by vm_compute).
  assert (Hm : member (VObj 10) [KStr "c"; KStr "map"] scenario
               = (Ret (VFun 5), scenario)) by (by vm_compute).
  assert (Hv : present (VFun 5)) by (intros [H|H]; discriminate).
  destruct (resolve_where_member_returns scenario 10 _ _ (Some (VFun 7)) Hk Hp Hm Hv)
    as (Hr & _).
  exact (conj Hk (conj Hp (conj Hm (conj Hv Hr)))).
Defined.

(** ** Writes to other properties *)







(** ** Array indices *)

(** A decimal numeral does not start with a character that is no digit. *)
Lemma pretty_N_go_not_starting x s c t :
  (forall d, pretty_N_char d <> c) ->
  s <> String c t -> pretty_N_go x s <> String c t.
Proof.
  intros Hc. revert s. induction (N.lt_wf_0 x) as [x _ IH]; intros s Hs.
  assert (x = 0 \/ 0 < x)%N as [->|Hx] by lia.
  - by rewrite pretty_N_go_0.
  - rewrite pretty_N_go_step by done. apply IH.
    + by apply N.div_lt.
    + intros [= Hd _]. by apply Hc in Hd.
Qed.

Lemma pretty_not_starting (n : N) c t :
  (forall d, pretty_N_char d <> c) -> pretty n <> String c t.
Proof.
  intros Hc. unfold pretty, pretty_N. case_decide.
  - intros [= Hd _]. by apply (Hc 0%N).
  - by apply pretty_N_go_not_starting.
Qed.

Lemma pretty_not_length (n : N) : pretty n <> "length".
Proof.
  apply pretty_not_starting. intros d. unfold pretty_N_char. by repeat case_match.
Qed.

Lemma index_data_key (n : N) : data_key (KStr (pretty n)).
Proof.
  intros [= Hk]. revert Hk. apply pretty_not_starting.
  intros d. unfold pretty_N_char. by repeat case_match.
Qed.

Lemma own_property_index o xs i :
  elems o = Some xs -> i < length xs ->
  own_property o (KStr (pretty (N.of_nat i))) = xs !! i.
Proof.
  intros He Hi. unfold own_property. rewrite He.
  destruct (decide _) as [Hl|_]; [by apply pretty_not_length in Hl|].
  by rewrite (proj2 (array_index_Some (length xs) _ i) (conj Hi eq_refl)).
Qed.

Lemma own_property_out_of_range o xs i :
  elems o = Some xs -> length xs <= i ->
  own_property o (KStr (pretty (N.of_nat i))) = props o !! KStr (pretty (N.of_nat i)).
Proof.
  intros He Hi. unfold own_property. rewrite He.
  destruct (decide _) as [Hl|_]; [by apply pretty_not_length in Hl|].
  destruct (array_index _ _) as [j|] eqn:Hj; [|done].
  apply array_index_Some in Hj as [Hlt Hj]. apply (inj pretty) in Hj. lia.
Qed.

Lemma nested_value_own σ l k v :
  own_property (σ !!! l) k = Some v -> nested_value σ (VObj l) k = v.
Proof. intros H. simpl. by rewrite H. Qed.

Lemma nested_value_inherited σ l k :
  own_property (σ !!! l) k = None ->
  nested_value σ (VObj l) k = inherited σ (σ !!! l) k.
Proof. intros H. simpl. by rewrite H. Qed.

(** X10: indices need no bounds check.  On a handle wrapping an array, the
    lookup of an index below the length resolves to that element (to the
    argument when the element is absent), whatever the array inherits; an
    index from the length on is an ordinary missing property: when the array
    neither owns nor inherits a property of that name, the lookup resolves to
    the argument, [undefined] without one, and nothing is raised. *)
Theorem index_lookup
    (σ : heap) (l : loc) (xs : list value) (pk : label) (i : nat)
    (arg : option value) :
  elems (σ !!! l) = Some xs ->
  (forall v, xs !! i = Some v ->
     resolve_from (oc (VObj l) pk) [KStr (pretty (N.of_nat i))] arg σ
     = (Ret (Some (if loose_eq_null v then default VUndefined arg else v)), σ))
  /\ (length xs <= i ->
      props (σ !!! l) !! KStr (pretty (N.of_nat i)) = None ->
      inherited σ (σ !!! l) (KStr (pretty (N.of_nat i))) = VUndefined ->
      resolve_from (oc (VObj l) pk) [KStr (pretty (N.of_nat i))] arg σ
      = (Ret (Some (default VUndefined arg)), σ)).
Proof.
  intros He.
  assert (Hk := index_data_key (N.of_nat i)).
  split.
  - intros v Hv. rewrite resolve_from_key by done. simpl data.
    assert (Hi : i < length xs) by (by apply lookup_lt_Some in Hv).
    by rewrite (nested_value_own _ _ _ v)
      by (by rewrite (own_property_index _ _ _ He Hi)).
  - intros Hi Hown Hinh. rewrite resolve_from_key by done. simpl data.
    rewrite nested_value_inherited
      by (by rewrite (own_property_out_of_range _ _ _ He Hi)).
    by rewrite Hinh.
Qed.

Lemma index_lookup_witness :
  elems (scenario !!! 12) = Some [VNum (-100); VNum 200; VNum (-300)]
  /\ resolve_from (oc (VObj 12) (LStr "c")) [KStr (pretty (N.of_nat 1))] None scenario
     = (Ret (Some (VNum 200)), scenario)
  /\ resolve_from (oc (VObj 12) (LStr "c")) [KStr (pretty (N.of_nat 100))]
       (Some (VNum 1234)) scenario
     = (Ret (Some (VNum 1234)), scenario).
Proof.
  assert (He : elems (scenario !!! 12) = Some [VNum (-100); VNum 200; VNum (-300)])
    by (by vm_compute).
  destruct (index_lookup scenario 12 _ (LStr "c") 1 None He) as (Hin & _).
  destruct (index_lookup scenario 12 _ (LStr "c") 100 (Some (VNum 1234)) He)
    as (_ & Hout).
  split; [exact He|]. split.
  - exact (Hin (VNum 200) eq_refl).
  - apply Hout; [simpl; lia | by vm_compute | by vm_compute].
Defined.
